(** * EnumLike: the key-to-self mapping constructor of ts-utils

    A shallow embedding of the two runtime implementations of [EnumLike]
    found in the repository,

      - generic-utils/src/lib/type-utils/enum-like/enum-like.ts
      - generic-utils/src/lib/enum-like.ts

    over a small model of the JavaScript values, heap objects and built-in
    functions they use ([Array.isArray], [typeof], [!], [Array.prototype.map],
    [Object.keys], [Object.fromEntries]).

    Scope of the model.  Values are the primitives [undefined], [null],
    booleans, numbers and strings, and references to heap objects; a heap
    object is a dense array of primitive elements or a plain object with
    string keys and arbitrary values.  Symbols, functions, accessors, arrays
    with holes and array elements that are objects are left out, and with
    them the [TypeError] that [Object.fromEntries] raises on a hole or on an
    element without a string conversion.  Strings are UTF-8 byte sequences
    standing for the JavaScript string of the same text.  A plain object keeps its properties in the
    order in which JavaScript enumerates them: array-index keys first, in
    ascending numeric order, then the other keys in order of creation.  The
    pairs [[key, key]] built by the callback of [map] are temporaries that
    nothing else can reach; they are passed on as a list and do not live in
    the heap. *)

From Stdlib Require Import ZArith NArith Ascii.
From stdpp Require Import base option list gmap strings pretty sorting.

Local Open Scope string_scope.
Local Open Scope list_scope.
Set Warnings "-clear-no-such-hyp".

(** ** Values and the heap *)

(** Heap locations; arrays and objects are reference values. *)
Definition loc := positive.
Bind Scope positive_scope with loc.

(** Numbers.  The code only tests a number for truthiness and for its
    [typeof]; as an array element a number is turned into a property key by
    its decimal expansion.  [Int z] stands for an integer-valued Number that
    JavaScript prints in full: a safe integer, of absolute value at most
    2^53 - 1 (beyond 10^21 JavaScript prints an exponent, and not every
    larger integer is a Number). *)
Inductive number :=
  | NaN
  | Int (z : Z).

(** Primitive values (symbols are not modelled). *)
Inductive prim :=
  | PUndefined
  | PNull
  | PBool (b : bool)
  | PNum (n : number)
  | PStr (s : string).

Inductive value :=
  | VPrim (p : prim)
  | VRef (l : loc).

Coercion VPrim : prim >-> value.
Arguments VRef l%_positive.

(** The own enumerable data properties of a plain object, kept in the order
    in which [Object.keys] enumerates them. *)
Definition props := list (string * value).

(** Heap objects: dense arrays of primitive elements, and plain objects with
    string-keyed properties. *)
Inductive hobj :=
  | HArray (elems : list prim)
  | HObject (ps : props).

Abbreviation heap := (gmap loc hobj).

#[global] Instance number_eq_dec : EqDecision number.
Proof. solve_decision. Defined.

#[global] Instance prim_eq_dec : EqDecision prim.
Proof. solve_decision. Defined.

#[global] Instance value_eq_dec : EqDecision value.
Proof. solve_decision. Defined.

(** ** Completions and the heap-passing monad *)

Inductive error :=
  | TypeError.

(** A call either returns a value in a new heap or throws. *)
Inductive completion (A : Type) :=
  | Normal (a : A) (h : heap)
  | Throw (e : error).

Arguments Normal {A} a h.
Arguments Throw {A} e.

Definition M (A : Type) : Type := heap → completion A.

#[global] Instance M_ret : MRet M := fun A (a : A) h => Normal a h.

#[global] Instance M_bind : MBind M := fun A B (k : A → M B) (m : M A) h =>
  match m h with
  | Normal a h' => k a h'
  | Throw e => Throw e
  end.

Definition throw {A} (e : error) : M A := fun _ => Throw e.

(** Reading the heap without changing it. *)
Definition gets {A} (f : heap → A) : M A := fun h => Normal (f h) h.

(** Allocation of a new heap object at an unused location. *)
Definition alloc (o : hobj) : M value :=
  fun h => let l := fresh (dom h) in Normal (VRef l) (<[l := o]> h).

(** ** Property keys *)

(** Decimal rendering of a number, as [Number.prototype.toString] does for
    integers. *)
Definition Number_toString (n : number) : string :=
  match n with
  | NaN => "NaN"
  | Int z => pretty z
  end.

(** [ToPropertyKey] on primitives: strings are kept, every other primitive is
    converted with [ToString]. *)
Definition ToPropertyKey (p : prim) : string :=
  match p with
  | PUndefined => "undefined"
  | PNull => "null"
  | PBool true => "true"
  | PBool false => "false"
  | PNum n => Number_toString n
  | PStr s => s
  end.

Definition digit_of (c : ascii) : option N :=
  let n := N_of_ascii c in
  if ((48 <=? n) && (n <=? 57))%N then Some (n - 48)%N else None.

Fixpoint parse_digits (acc : N) (s : string) : option N :=
  match s with
  | EmptyString => Some acc
  | String c s' =>
      match digit_of c with
      | Some d => parse_digits (10 * acc + d)%N s'
      | None => None
      end
  end.

(** A property key is an array index when it is the canonical decimal form
    of an integer in the range 0 .. 2^32 - 2. *)
Definition array_index (s : string) : option N :=
  match s with
  | EmptyString => None
  | _ =>
      match parse_digits 0 s with
      | Some n =>
          if ((n <? 2 ^ 32 - 1)%N && String.eqb (pretty n) s)%bool
          then Some n else None
      | None => None
      end
  end.

(** [key_before k k'] holds when a new key [k] is enumerated before an
    existing key [k']: array indices come first, in ascending numeric order;
    all other keys follow in order of creation. *)
Definition key_before (k k' : string) : bool :=
  match array_index k, array_index k' with
  | Some n, Some m => (n <? m)%N
  | Some _, None => true
  | None, _ => false
  end.

(** [CreateDataProperty]: an existing key keeps its place and gets the new
    value; a new key is placed according to [key_before]. *)
Fixpoint CreateDataProperty (ps : props) (k : string) (v : value) : props :=
  match ps with
  | [] => [(k, v)]
  | (k', v') :: ps' =>
      if String.eqb k' k then (k, v) :: ps'
      else if key_before k k' then (k, v) :: (k', v') :: ps'
      else (k', v') :: CreateDataProperty ps' k v
  end.

(** Property read [o[k]] on own properties. *)
Fixpoint Get (ps : props) (k : string) : option value :=
  match ps with
  | [] => None
  | (k', v) :: ps' => if String.eqb k' k then Some v else Get ps' k
  end.

Definition keys_of (ps : props) : list string := map fst ps.

(** ** Built-in operations used by the source *)

(** [ToBoolean]; the source's [!param] is [negb (ToBoolean param)]. *)
Definition ToBoolean (v : value) : bool :=
  match v with
  | VPrim PUndefined => false
  | VPrim PNull => false
  | VPrim (PBool b) => b
  | VPrim (PNum NaN) => false
  | VPrim (PNum (Int z)) => negb (z =? 0)%Z
  | VPrim (PStr s) => negb (String.eqb s "")
  | VRef _ => true
  end.

Definition typeof (v : value) : string :=
  match v with
  | VPrim PUndefined => "undefined"
  | VPrim PNull => "object"
  | VPrim (PBool _) => "boolean"
  | VPrim (PNum _) => "number"
  | VPrim (PStr _) => "string"
  | VRef _ => "object"
  end.

Definition Array_isArray (v : value) : M bool :=
  gets (fun h =>
    match v with
    | VRef l => match h !! l with Some (HArray _) => true | _ => false end
    | VPrim _ => false
    end).

(** The elements of an array value (empty for anything else). *)
Definition array_elems (v : value) : M (list prim) :=
  gets (fun h =>
    match v with
    | VRef l => match h !! l with Some (HArray es) => es | _ => [] end
    | VPrim _ => []
    end).

(** [param.length] on an array. *)
Definition Array_length (v : value) : M nat :=
  es ← array_elems v; mret (length es).

(** [param.map(f)]; the callback of the source builds the pair [[key, key]],
    a temporary that only [Object.fromEntries] reads. *)
Definition Array_map {B} (f : prim → B) (v : value) : M (list B) :=
  es ← array_elems v; mret (map f es).

(** Strings are held in UTF-8, as the string literals of this file are, and
    JavaScript indexes a string by UTF-16 code units: a code point below
    U+10000 (a sequence of one to three bytes) is one unit, a code point
    above (four bytes) is two.  The units of a byte: a continuation byte
    [10xxxxxx] adds nothing to the unit count of its lead byte. *)
Definition utf16_units (c : ascii) : nat :=
  let n := N_of_ascii c in
  if (n <? 128)%N then 1
  else if (n <? 192)%N then 0
  else if (n <? 240)%N then 1
  else 2.

(** [s.length] *)
Fixpoint utf16_length (s : string) : nat :=
  match s with
  | EmptyString => 0
  | String c s' => utf16_units c + utf16_length s'
  end.

(** The keys ["0"], ["1"], ... of the first [n] indices. *)
Definition index_keys (n : nat) : list string :=
  map (fun i => pretty (N.of_nat i)) (seq 0 n).

(** [Object.keys]: [ToObject] throws on [undefined] and [null]; a string
    primitive has one index key per UTF-16 code unit; numbers and booleans
    have no own keys. *)
Definition Object_keys (v : value) : M (list string) :=
  match v with
  | VPrim PUndefined => throw TypeError
  | VPrim PNull => throw TypeError
  | VPrim (PStr s) => mret (index_keys (utf16_length s))
  | VPrim (PBool _) => mret []
  | VPrim (PNum _) => mret []
  | VRef l =>
      gets (fun h =>
        match h !! l with
        | Some (HArray es) => index_keys (length es)
        | Some (HObject ps) => keys_of ps
        | None => []
        end)
  end.

(** The property list built from a list of [[key, value]] entries. *)
Definition props_of_entries (es : list (prim * value)) : props :=
  fold_left (fun ps e => CreateDataProperty ps (ToPropertyKey e.1) e.2) es [].

(** [Object.fromEntries]: a new object that receives the entries in
    iteration order. *)
Definition Object_fromEntries (es : list (prim * value)) : M value :=
  alloc (HObject (props_of_entries es)).

(** The object literal [{}]. *)
Definition empty_object : M value := alloc (HObject []).

(** ** The two implementations *)

(** generic-utils/src/lib/type-utils/enum-like/enum-like.ts *)
Module type_utils.

Definition EnumLike (param : value) : M value :=
  guard ← (if negb (ToBoolean param) then mret true
           else
             isArr ← Array_isArray param;
             if (isArr : bool) then
               len ← Array_length param; mret (len =? 0)%nat
             else mret false);
  if (guard : bool) then empty_object
  else
    isArr ← Array_isArray param;
    if (isArr : bool) then
      es ← Array_map (fun key => (key, VPrim key)) param;
      Object_fromEntries es
    else if String.eqb (typeof param) "object" then
      keys ← Object_keys param;
      Object_fromEntries (map (fun key => (PStr key, VPrim (PStr key))) keys)
    else
      empty_object.

End type_utils.

(** generic-utils/src/lib/enum-like.ts *)
Module lib.

Definition EnumLike (param : value) : M value :=
  isArr ← Array_isArray param;
  if (isArr : bool) then
    es ← Array_map (fun key => (key, VPrim key)) param;
    Object_fromEntries es
  else
    keys ← Object_keys param;
    Object_fromEntries (map (fun key => (PStr key, VPrim (PStr key))) keys).

End lib.

(** [f(f(x))] *)
Definition twice (f : value → M value) (x : value) : M value :=
  r ← f x; f r.

(** The same function, selected by the file it comes from. *)
Inductive impl :=
  | TypeUtils
  | Lib.

Definition EnumLike (i : impl) : value → M value :=
  match i with
  | TypeUtils => type_utils.EnumLike
  | Lib => lib.EnumLike
  end.

(** ** Observations on results *)

(** The property list of the object a call returned, if it returned one. *)
Definition result_props (c : completion value) : option props :=
  match c with
  | Normal (VRef l) h =>
      match h !! l with
      | Some (HObject ps) => Some ps
      | _ => None
      end
  | _ => None
  end.

(** The mapping that sends each element of a key sequence to itself; both
    branches of [EnumLike] build it with [map] and [Object.fromEntries]. *)
Definition enum_props (ks : list prim) : props :=
  props_of_entries (map (fun key => (key, VPrim key)) ks).

(** The keys of a sequence, each kept at its first occurrence. *)
Fixpoint first_occurrences (l : list string) : list string :=
  match l with
  | [] => []
  | x :: l' => x :: filter (fun y => y ≠ x) (first_occurrences l')
  end.

(** The enumeration order of a plain object: no key occurs twice, and no key
    is preceded by one that [key_before] places after it. *)
Definition canonical (ks : list string) : Prop :=
  StronglySorted (fun a b => a ≠ b ∧ key_before b a = false) ks.

(** Same keys in the same order, each value replaced by its key. *)
Definition stringify (ps : props) : props :=
  map (fun p => (p.1, VPrim (PStr p.1))) ps.

(** The inputs on which the two implementations are guaranteed to agree:
    everything except [undefined], [null] and non-empty strings. *)
Definition guarded_alike (v : value) : bool :=
  match v with
  | VPrim PUndefined => false
  | VPrim PNull => false
  | VPrim (PStr s) => String.eqb s ""
  | _ => true
  end.

(** [typeof p === 'string'] on a primitive. *)
Definition is_string (p : prim) : bool :=
  match p with
  | PStr _ => true
  | _ => false
  end.

(** Objects, and arrays all of whose elements are strings. *)
Definition string_keyed (o : hobj) : bool :=
  match o with
  | HObject _ => true
  | HArray K => forallb is_string K
  end.

(** ** Concrete inputs *)

(** The keys of the README example. *)
Definition status_keys : list prim :=
  [PStr "pending"; PStr "completed"; PStr "failed"].

Definition status_heap : heap := {[ 1%positive := HArray status_keys ]}.

(** An object whose values are a number, [null] and a reference. *)
Definition point_props : props :=
  [("x", VPrim (PNum (Int 3))); ("y", VPrim PNull); ("label", VRef 1)].

Definition point_heap : heap :=
  {[ 1%positive := HArray status_keys; 2%positive := HObject point_props ]}.

(** A sequence with an array-index key after an ordinary key. *)
Definition mixed_heap : heap := {[ 1%positive := HArray [PStr "b"; PStr "1"] ]}.

(** A sequence with a repeated key. *)
Definition aab_heap : heap :=
  {[ 1%positive := HArray [PStr "a"; PStr "a"; PStr "b"] ]}.

(** An empty array and an empty object. *)
Definition empties_heap : heap :=
  {[ 1%positive := HArray []; 2%positive := HObject [] ]}.

(** A sequence whose only key is the number 1. *)
Definition one_heap : heap := {[ 1%positive := HArray [PNum (Int 1)] ]}.

(** ** Definitions for the further properties *)



(** A key is ordinary when it is not an array index. *)
Definition ordinary_key (k : string) : Prop := array_index k = None.

(** A sequence with array-index keys and ordinary keys interleaved. *)
Definition interleaved_keys : list prim :=
  [PStr "b"; PStr "10"; PStr "a"; PStr "2"; PStr "b"].

Definition interleaved_heap : heap := {[ 1%positive := HArray interleaved_keys ]}.

(** The README keys in two different orders. *)
Definition shuffled_heap : heap :=
  {[ 1%positive := HArray status_keys;
     2%positive := HArray [PStr "failed"; PStr "pending"; PStr "completed"] ]}.

(** An object and the array of its keys. *)
Definition keys_heap : heap :=
  {[ 1%positive := HObject point_props;
     2%positive := HArray [PStr "x"; PStr "y"; PStr "label"] ]}.

(** A sequence with repeated keys and the sequence of its first occurrences. *)
Definition repeated_heap : heap :=
  {[ 1%positive := HArray (map PStr ["a"; "1"; "a"; "b"; "1"]);
     2%positive := HArray (map PStr (first_occurrences ["a"; "1"; "a"; "b"; "1"])) ]}.

#[global] Instance ordinary_key_dec (k : string) : Decision (ordinary_key k).
Proof. unfold ordinary_key. apply _. Defined.

(** The primitives on which the two implementations return the same
    completion: all but [undefined], [null] and the strings with at least
    one character. *)
Definition same_on_primitive (p : prim) : bool :=
  match p with
  | PUndefined => false
  | PNull => false
  | PStr s => (utf16_length s =? 0)%nat
  | _ => true
  end.


(** ** Tactics *)

(** Unfolds a call of [EnumLike] and rewrites the heap lookups with [H]. *)
Ltac run_with H :=
  cbv [EnumLike type_utils.EnumLike lib.EnumLike mbind M_bind mret M_ret
       Array_isArray Array_length Array_map array_elems gets throw
       ToBoolean negb Object_keys typeof Object_fromEntries empty_object alloc];
  repeat (rewrite ?H, ?String.eqb_refl; cbn beta iota).

(** * Lemmas *)

(** ** Facts about [key_before] *)

Lemma key_before_asym k k' : key_before k k' = true → key_before k' k = false.
Proof.
  unfold key_before.
  destruct (array_index k) as [n|], (array_index k') as [m|]; try done.
  rewrite N.ltb_lt, N.ltb_ge. lia.
Qed.

Lemma key_before_trans x k k' :
  key_before x k = true → key_before k k' = true → key_before x k' = true.
Proof.
  unfold key_before.
  destruct (array_index x) as [p|], (array_index k) as [n|],
    (array_index k') as [m|]; try done.
  rewrite !N.ltb_lt. lia.
Qed.

Lemma key_before_not_index k k' : array_index k = None → key_before k k' = false.
Proof. unfold key_before. by intros ->. Qed.

(** ** Facts about [CreateDataProperty] and [Get] *)

Lemma Get_CreateDataProperty ps k v k' :
  Get (CreateDataProperty ps k v) k' = if decide (k = k') then Some v else Get ps k'.
Proof.
  induction ps as [|[k0 v0] ps IH]; simpl.
  - destruct (String.eqb_spec k k'); case_decide; done.
  - destruct (String.eqb_spec k0 k) as [->|Hne].
    + simpl. destruct (String.eqb_spec k k'); case_decide; done.
    + destruct (key_before k k0); simpl.
      * destruct (String.eqb_spec k k'); case_decide; done.
      * rewrite IH. destruct (String.eqb_spec k0 k'); [|done].
        case_decide; congruence.
Qed.

Lemma keys_CreateDataProperty_elem ps k v k' :
  k' ∈ keys_of (CreateDataProperty ps k v) ↔ k' = k ∨ k' ∈ keys_of ps.
Proof.
  unfold keys_of. induction ps as [|[k0 v0] ps IH]; simpl.
  - set_solver.
  - destruct (String.eqb_spec k0 k) as [->|Hne]; simpl; [set_solver|].
    destruct (key_before k k0); simpl; [set_solver|].
    rewrite !elem_of_cons, IH. tauto.
Qed.

Lemma Get_None ps k : Get ps k = None ↔ k ∉ keys_of ps.
Proof.
  unfold keys_of. induction ps as [|[k0 v0] ps IH]; simpl.
  - set_solver.
  - destruct (String.eqb_spec k0 k) as [->|Hne]; [set_solver|].
    rewrite IH. set_solver.
Qed.

Lemma Get_elem ps k v : Get ps k = Some v → (k, v) ∈ ps.
Proof.
  induction ps as [|[k0 v0] ps IH]; simpl; [done|].
  destruct (String.eqb_spec k0 k) as [->|Hne].
  - intros [= ->]. left.
  - intros H. right. auto.
Qed.

Lemma elem_keys_of ps k v : (k, v) ∈ ps → k ∈ keys_of ps.
Proof. intros H. unfold keys_of. by apply (list_elem_of_fmap_2 fst) in H. Qed.

Lemma Get_of_elem ps k v :
  NoDup (keys_of ps) → (k, v) ∈ ps → Get ps k = Some v.
Proof.
  unfold keys_of. induction ps as [|[k0 v0] ps IH]; simpl; intros Hnd Hin.
  - by apply elem_of_nil in Hin.
  - apply NoDup_cons in Hnd as [Hk0 Hnd].
    apply elem_of_cons in Hin as [[= -> ->]|Hin].
    + by rewrite String.eqb_refl.
    + destruct (String.eqb_spec k0 k) as [->|Hne]; [|auto].
      by apply elem_keys_of in Hin.
Qed.

(** ** Facts about the enumeration order *)

Lemma canonical_cons k ks :
  canonical (k :: ks) ↔
    Forall (fun x => k ≠ x ∧ key_before x k = false) ks ∧ canonical ks.
Proof.
  unfold canonical. split.
  - intros H. apply StronglySorted_inv in H. tauto.
  - intros [H1 H2]. by constructor.
Qed.

Lemma canonical_snoc ks k :
  canonical (ks ++ [k]) ↔
    canonical ks ∧ Forall (fun x => x ≠ k ∧ key_before k x = false) ks.
Proof.
  induction ks as [|k0 ks IH]; simpl.
  - split; [intros _; split; constructor|intros _; repeat constructor].
  - rewrite !canonical_cons, IH, Forall_app, !Forall_cons, Forall_nil.
    tauto.
Qed.

Lemma canonical_NoDup ks : canonical ks → NoDup ks.
Proof.
  induction ks as [|k ks IH]; [constructor|].
  rewrite canonical_cons, NoDup_cons. intros [H1 H2]. split; [|auto].
  intros Hin. rewrite Forall_forall in H1. by destruct (H1 _ Hin).
Qed.

(** A key that goes before the head of an enumeration is not in it. *)
Lemma key_before_head_fresh k k0 ks :
  canonical (k0 :: ks) → key_before k k0 = true →
  Forall (fun x => k ≠ x ∧ key_before x k = false) (k0 :: ks).
Proof.
  rewrite canonical_cons. intros [H1 _] Hkb.
  constructor.
  - split; [|by apply key_before_asym].
    intros ->. apply key_before_asym in Hkb as Hkb'. congruence.
  - eapply Forall_impl; [exact H1|]. intros x [Hne Hx]. split.
    + intros ->. congruence.
    + destruct (key_before x k) eqn:Hxk; [|done].
      rewrite (key_before_trans _ _ _ Hxk Hkb) in Hx. done.
Qed.

Lemma canonical_CreateDataProperty ps k v :
  canonical (keys_of ps) → canonical (keys_of (CreateDataProperty ps k v)).
Proof.
  unfold keys_of. induction ps as [|[k0 v0] ps IH]; simpl; intros Hc.
  - apply canonical_cons. split; constructor.
  - destruct (String.eqb_spec k0 k) as [->|Hne]; simpl; [done|].
    destruct (key_before k k0) eqn:Hkb; simpl.
    + apply canonical_cons. split; [|done].
      by apply key_before_head_fresh.
    + apply canonical_cons in Hc as [H1 H2].
      apply canonical_cons. split; [|auto].
      apply Forall_forall. intros x Hx.
      apply (keys_CreateDataProperty_elem ps k v x) in Hx as [->|Hx].
      * done.
      * rewrite Forall_forall in H1. auto.
Qed.

(** A key that is placed after every existing key is appended. *)
Lemma CreateDataProperty_append ps k v :
  Forall (fun x => x ≠ k ∧ key_before k x = false) (keys_of ps) →
  CreateDataProperty ps k v = ps ++ [(k, v)].
Proof.
  unfold keys_of. induction ps as [|[k0 v0] ps IH]; simpl; [done|].
  rewrite Forall_cons. simpl. intros [[Hne Hkb] Hf].
  destruct (String.eqb_spec k0 k); [done|].
  rewrite Hkb. by rewrite IH.
Qed.

(** An existing key keeps its place. *)
Lemma keys_CreateDataProperty_present ps k v :
  canonical (keys_of ps) → k ∈ keys_of ps →
  keys_of (CreateDataProperty ps k v) = keys_of ps.
Proof.
  unfold keys_of. induction ps as [|[k0 v0] ps IH]; simpl; intros Hc Hin.
  - set_solver.
  - destruct (String.eqb_spec k0 k) as [->|Hne]; simpl; [done|].
    destruct (key_before k k0) eqn:Hkb; simpl.
    + pose proof (key_before_head_fresh _ _ _ Hc Hkb) as Hf.
      rewrite Forall_forall in Hf. by destruct (Hf _ Hin).
    + apply canonical_cons in Hc as [_ Hc]. rewrite IH; set_solver.
Qed.

Lemma length_CreateDataProperty_fresh ps k v :
  k ∉ keys_of ps → length (CreateDataProperty ps k v) = S (length ps).
Proof.
  unfold keys_of. induction ps as [|[k0 v0] ps IH]; simpl; intros Hin; [done|].
  apply not_elem_of_cons in Hin as [Hne Hin].
  destruct (String.eqb_spec k0 k); [congruence|].
  destruct (key_before k k0); simpl; [done|].
  by rewrite IH.
Qed.

(** ** Facts about [Object.fromEntries] *)

Lemma props_of_entries_snoc es e :
  props_of_entries (es ++ [e]) =
    CreateDataProperty (props_of_entries es) (ToPropertyKey e.1) e.2.
Proof. unfold props_of_entries. by rewrite fold_left_app. Qed.

Lemma canonical_props_of_entries es : canonical (keys_of (props_of_entries es)).
Proof.
  induction es as [|e es IH] using rev_ind.
  - constructor.
  - rewrite props_of_entries_snoc. by apply canonical_CreateDataProperty.
Qed.

Lemma keys_props_of_entries_elem es k :
  k ∈ keys_of (props_of_entries es) ↔ k ∈ map (fun e => ToPropertyKey e.1) es.
Proof.
  induction es as [|e es IH] using rev_ind.
  - done.
  - rewrite props_of_entries_snoc, keys_CreateDataProperty_elem, IH.
    rewrite map_app, elem_of_app. simpl. rewrite list_elem_of_singleton. tauto.
Qed.

(** Last write wins: the value read at a key is the value of the last entry
    with that key. *)
Lemma Get_props_of_entries_last es1 e es2 :
  Forall (fun e' => ToPropertyKey e'.1 ≠ ToPropertyKey e.1) es2 →
  Get (props_of_entries (es1 ++ e :: es2)) (ToPropertyKey e.1) = Some e.2.
Proof.
  induction es2 as [|e2 es2 IH] using rev_ind; intros Hf.
  - rewrite props_of_entries_snoc, Get_CreateDataProperty. by case_decide.
  - apply Forall_app in Hf as [Hf1 Hf2].
    apply Forall_cons in Hf2 as [Hne _].
    replace (es1 ++ e :: es2 ++ [e2]) with ((es1 ++ e :: es2) ++ [e2])
      by (by rewrite <- app_assoc).
    rewrite props_of_entries_snoc, Get_CreateDataProperty.
    case_decide; [done|auto].
Qed.

Lemma length_props_of_entries es :
  NoDup (map (fun e => ToPropertyKey e.1) es) →
  length (props_of_entries es) = length es.
Proof.
  induction es as [|e es IH] using rev_ind; intros Hnd; [done|].
  rewrite map_app in Hnd. apply NoDup_app in Hnd as (Hnd & Hdisj & _).
  rewrite props_of_entries_snoc, length_CreateDataProperty_fresh.
  - rewrite length_app, IH by done. simpl. lia.
  - rewrite keys_props_of_entries_elem. intros Hin.
    apply (Hdisj _ Hin). simpl. left.
Qed.

(** ** Facts about [enum_props] *)

Lemma enum_props_snoc ks k :
  enum_props (ks ++ [k]) =
    CreateDataProperty (enum_props ks) (ToPropertyKey k) (VPrim k).
Proof.
  unfold enum_props. rewrite List.map_app. simpl.
  by rewrite props_of_entries_snoc.
Qed.

Lemma canonical_enum_props ks : canonical (keys_of (enum_props ks)).
Proof. apply canonical_props_of_entries. Qed.

Lemma keys_enum_props_elem ks s :
  s ∈ keys_of (enum_props ks) ↔ s ∈ map ToPropertyKey ks.
Proof.
  unfold enum_props. rewrite keys_props_of_entries_elem.
  by rewrite map_map.
Qed.

Lemma length_enum_props ks :
  NoDup (map ToPropertyKey ks) → length (enum_props ks) = length ks.
Proof.
  intros Hnd. unfold enum_props.
  rewrite length_props_of_entries; rewrite ?map_map; [by rewrite length_map|done].
Qed.

(** Every entry of the mapping pairs the property key of some element of the
    sequence with that element. *)
Lemma enum_props_entries ks s v :
  (s, v) ∈ enum_props ks → ∃ k, k ∈ ks ∧ s = ToPropertyKey k ∧ v = VPrim k.
Proof.
  revert s v. induction ks as [|k ks IH] using rev_ind; intros s v Hin.
  - by apply elem_of_nil in Hin.
  - rewrite enum_props_snoc in Hin.
    apply Get_of_elem in Hin.
    2:{ rewrite <- enum_props_snoc. apply canonical_NoDup, canonical_enum_props. }
    rename Hin into Hget.
    rewrite Get_CreateDataProperty in Hget. case_decide as Hd.
    + injection Hget as <-. exists k. set_solver.
    + apply Get_elem, IH in Hget as (k' & ? & ? & ?). exists k'. set_solver.
Qed.

(** Under pairwise distinct property keys every element is read back at its
    own key. *)
Lemma Get_enum_props ks k :
  NoDup (map ToPropertyKey ks) → k ∈ ks →
  Get (enum_props ks) (ToPropertyKey k) = Some (VPrim k).
Proof.
  intros Hnd Hin. apply list_elem_of_split in Hin as (ks1 & ks2 & ->).
  unfold enum_props. rewrite List.map_app. simpl.
  apply (Get_props_of_entries_last _ (k, VPrim k)).
  rewrite List.map_app in Hnd. apply NoDup_app in Hnd as (_ & _ & Hnd).
  simpl in Hnd. apply NoDup_cons in Hnd as [Hk _].
  apply Forall_forall. intros [k' v'] Hin' Heq. simpl in *.
  apply Hk. rewrite <- Heq.
  apply list_elem_of_fmap in Hin' as (k'' & [= -> ->] & Hin'').
  by apply (list_elem_of_fmap_2 ToPropertyKey).
Qed.

(** ** Facts about the order of enumeration *)

Lemma first_occurrences_snoc l x :
  first_occurrences (l ++ [x]) =
    if decide (x ∈ l) then first_occurrences l else first_occurrences l ++ [x].
Proof.
  induction l as [|y l IH].
  - destruct (decide (x ∈ [])) as [Hin|_]; [|done]. by apply elem_of_nil in Hin.
  - change (first_occurrences ((y :: l) ++ [x])) with
      (y :: filter (fun z => z ≠ y) (first_occurrences (l ++ [x]))).
    change (first_occurrences (y :: l)) with
      (y :: filter (fun z => z ≠ y) (first_occurrences l)).
    rewrite IH. destruct (decide (x ∈ l)) as [Hin|Hin].
    + destruct (decide (x ∈ y :: l)) as [_|Hn]; [done|].
      exfalso. apply Hn. by right.
    + rewrite filter_app. destruct (decide (x = y)) as [->|Hne].
      * destruct (decide (y ∈ y :: l)) as [_|Hn]; [|exfalso; apply Hn; left].
        rewrite filter_cons_False by (by intros ?).
        by rewrite filter_nil, app_nil_r.
      * destruct (decide (x ∈ y :: l)) as [[?|?]%elem_of_cons|_]; [done..|].
        by rewrite filter_cons_True.
Qed.

Lemma filter_ne_id (l : list string) y : y ∉ l → filter (fun z => z ≠ y) l = l.
Proof.
  induction l as [|z l IH]; [done|].
  intros [Hne Hy]%not_elem_of_cons.
  rewrite filter_cons_True by done. by rewrite IH.
Qed.

Lemma first_occurrences_NoDup l : NoDup l → first_occurrences l = l.
Proof.
  induction l as [|y l IH]; simpl; [done|].
  rewrite NoDup_cons. intros [Hy Hnd]. rewrite IH by done.
  by rewrite filter_ne_id.
Qed.

Lemma keys_enum_props_order ks :
  Forall (fun k => array_index (ToPropertyKey k) = None) ks →
  keys_of (enum_props ks) = first_occurrences (map ToPropertyKey ks).
Proof.
  induction ks as [|k ks IH] using rev_ind; intros Hf; [done|].
  apply Forall_app in Hf as [Hf Hk]. apply Forall_cons in Hk as [Hk _].
  rewrite enum_props_snoc, List.map_app. simpl.
  rewrite first_occurrences_snoc, <- IH by done.
  destruct (decide (ToPropertyKey k ∈ map ToPropertyKey ks)) as [Hin|Hin].
  - apply keys_CreateDataProperty_present; [apply canonical_enum_props|].
    by apply keys_enum_props_elem.
  - rewrite CreateDataProperty_append.
    + unfold keys_of. by rewrite List.map_app.
    + apply Forall_forall. intros x Hx. split.
      * intros ->. by apply keys_enum_props_elem in Hx.
      * by apply key_before_not_index.
Qed.

(** Re-inserting the keys of an object in their enumeration order rebuilds
    the same enumeration. *)
Lemma enum_props_keys_of ps :
  canonical (keys_of ps) → enum_props (map PStr (keys_of ps)) = stringify ps.
Proof.
  induction ps as [|[k v] ps IH] using rev_ind; intros Hc; [done|].
  unfold keys_of in *. rewrite List.map_app in *. simpl in *.
  apply canonical_snoc in Hc as [Hc Hf].
  rewrite List.map_app. simpl. rewrite enum_props_snoc, IH by done.
  unfold stringify. rewrite List.map_app. simpl.
  apply CreateDataProperty_append.
  unfold keys_of. by rewrite List.map_map.
Qed.

Lemma stringify_id ps :
  Forall (fun p => p.2 = VPrim (PStr p.1)) ps → stringify ps = ps.
Proof.
  induction 1 as [|[k v] ps Hv _ IH]; [done|].
  simpl in *. by rewrite IH, Hv.
Qed.

(** ** Evaluation of [EnumLike] on arrays and objects *)

Lemma EnumLike_array i h a ks :
  h !! a = Some (HArray ks) →
  EnumLike i (VRef a) h =
    Normal (VRef (fresh (dom h))) (<[fresh (dom h) := HObject (enum_props ks)]> h).
Proof.
  intros Ha. destruct i; run_with Ha.
  - destruct ks as [|k ks]; cbn [length Nat.eqb]; by run_with Ha.
  - done.
Qed.

Lemma EnumLike_object i h a ps :
  h !! a = Some (HObject ps) →
  EnumLike i (VRef a) h =
    Normal (VRef (fresh (dom h)))
      (<[fresh (dom h) := HObject (enum_props (map PStr (keys_of ps)))]> h).
Proof.
  intros Ha. unfold enum_props. rewrite List.map_map.
  destruct i; by run_with Ha.
Qed.

Lemma result_props_alloc (h : heap) ps :
  result_props (Normal (VRef (fresh (dom h))) (<[fresh (dom h) := HObject ps]> h)) = Some ps.
Proof. unfold result_props. by rewrite lookup_insert_eq. Qed.

Lemma fresh_not_allocated (h : heap) : h !! fresh (dom h) = None.
Proof. apply not_elem_of_dom, is_fresh. Qed.

(** * Properties of [EnumLike] *)

(** C1. For every non-empty sequence [K] of distinct keys (distinct as
    property keys), both implementations of [EnumLike] return a mapping with
    exactly [length K] entries, and reading the mapping at any key [k] of [K]
    gives [k] itself. *)
Theorem EnumLike_distinct_keys (i : impl) (h : heap) (a : loc) (K : list prim) :
  h !! a = Some (HArray K) →
  K ≠ [] →
  NoDup (map ToPropertyKey K) →
  ∃ ps, result_props (EnumLike i (VRef a) h) = Some ps
      ∧ length ps = length K
      ∧ ∀ k, k ∈ K → Get ps (ToPropertyKey k) = Some (VPrim k).
Proof.
  intros Ha _ Hnd. exists (enum_props K).
  rewrite (EnumLike_array i h a K Ha), result_props_alloc.
  split; [done|]. split.
  - by apply length_enum_props.
  - intros k Hk. by apply Get_enum_props.
Qed.

(** The number 1 and the string '1' are one and the same property key: a
    sequence holding both gives a mapping with a single entry. *)
Example EnumLike_number_and_string_key :
  result_props (EnumLike TypeUtils (VRef 1)
                  {[ 1%positive := HArray [PNum (Int 1); PStr "1"] ]}) =
    Some [("1", VPrim (PStr "1"))].
Proof. reflexivity. Qed.

Lemma EnumLike_distinct_keys_witness :
  status_heap !! 1%positive = Some (HArray status_keys)
  ∧ ∃ ps, result_props (EnumLike TypeUtils (VRef 1) status_heap) = Some ps
        ∧ length ps = length status_keys
        ∧ ∀ k, k ∈ status_keys → Get ps (ToPropertyKey k) = Some (VPrim k).
Proof.
  split; [reflexivity|].
  apply (EnumLike_distinct_keys TypeUtils status_heap 1 status_keys).
  - reflexivity.
  - discriminate.
  - apply (bool_decide_unpack _). vm_compute. exact I.
Defined.

(** C2. For every object [M], both implementations return a mapping whose
    keys are exactly the keys of [M], each once, and whose value at every key
    is that key; the values stored in [M] play no part: any object with the
    same keys gives the same mapping. *)
Theorem EnumLike_object_keys (i : impl) (h : heap) (a : loc) (M : props) :
  h !! a = Some (HObject M) →
  ∃ ps, result_props (EnumLike i (VRef a) h) = Some ps
      ∧ (∀ k, k ∈ keys_of ps ↔ k ∈ keys_of M)
      ∧ NoDup (keys_of ps)
      ∧ (∀ k v, (k, v) ∈ ps → v = VPrim (PStr k))
      ∧ (∀ k, k ∈ keys_of M → Get ps k = Some (VPrim (PStr k)))
      ∧ (∀ h' a' M', h' !! a' = Some (HObject M') → keys_of M' = keys_of M →
           result_props (EnumLike i (VRef a') h') = Some ps).
Proof.
  intros Ha. exists (enum_props (map PStr (keys_of M))).
  rewrite (EnumLike_object i h a M Ha), result_props_alloc.
  assert (Hk : ∀ k, k ∈ keys_of (enum_props (map PStr (keys_of M))) ↔ k ∈ keys_of M).
  { intros k. rewrite keys_enum_props_elem, List.map_map. simpl.
    by rewrite List.map_id. }
  assert (Hv : ∀ k v, (k, v) ∈ enum_props (map PStr (keys_of M)) → v = VPrim (PStr k)).
  { intros k v Hin. apply enum_props_entries in Hin as (p & Hp & -> & ->).
    apply list_elem_of_fmap in Hp as (s & -> & _). done. }
  pose proof (canonical_NoDup _ (canonical_enum_props (map PStr (keys_of M)))) as Hnd.
  repeat split; try done; try apply Hk.
  - intros k Hin. apply Hk in Hin.
    destruct (Get (enum_props (map PStr (keys_of M))) k) as [v|] eqn:Hget.
    + apply Get_elem in Hget. by rewrite (Hv _ _ Hget).
    + by apply Get_None in Hget.
  - intros h' a' M' Ha' Heq.
    by rewrite (EnumLike_object i h' a' M' Ha'), result_props_alloc, Heq.
Qed.

Lemma EnumLike_object_keys_witness :
  point_heap !! 2%positive = Some (HObject point_props)
  ∧ ∃ ps, result_props (EnumLike Lib (VRef 2) point_heap) = Some ps
      ∧ (∀ k, k ∈ keys_of ps ↔ k ∈ keys_of point_props)
      ∧ NoDup (keys_of ps)
      ∧ (∀ k v, (k, v) ∈ ps → v = VPrim (PStr k))
      ∧ (∀ k, k ∈ keys_of point_props → Get ps k = Some (VPrim (PStr k)))
      ∧ (∀ h' a' M', h' !! a' = Some (HObject M') →
           keys_of M' = keys_of point_props →
           result_props (EnumLike Lib (VRef a') h') = Some ps).
Proof.
  split; [reflexivity|].
  apply (EnumLike_object_keys Lib point_heap 2 point_props). reflexivity.
Defined.

(** C3. The implementation of type-utils/enum-like returns an empty mapping
    for every primitive input, [null] and [42] included, and throws nothing.
    The implementation of lib/enum-like.ts has no such guard: on [null] and
    on [undefined] its call of [Object.keys] throws a [TypeError], and for a
    non-empty string it returns the mapping of the string's indices; only on
    numbers, booleans and the empty string does it return the empty mapping. *)
Theorem EnumLike_invalid_input (h : heap) :
  (∀ p : prim, result_props (type_utils.EnumLike (VPrim p) h) = Some [])
  ∧ lib.EnumLike (VPrim PNull) h = Throw TypeError
  ∧ lib.EnumLike (VPrim PUndefined) h = Throw TypeError
  ∧ result_props (lib.EnumLike (VPrim (PNum (Int 42))) h) = Some []
  ∧ (∀ n, result_props (lib.EnumLike (VPrim (PNum n)) h) = Some [])
  ∧ (∀ b, result_props (lib.EnumLike (VPrim (PBool b)) h) = Some [])
  ∧ result_props (lib.EnumLike (VPrim (PStr "")) h) = Some []
  ∧ result_props (lib.EnumLike (VPrim (PStr "Red")) h) =
      Some [("0", VPrim (PStr "0")); ("1", VPrim (PStr "1")); ("2", VPrim (PStr "2"))].
Proof.
  repeat split.
  - intros p. destruct p as [| |b|n|s].
    + apply result_props_alloc.
    + apply result_props_alloc.
    + destruct b; apply result_props_alloc.
    + destruct n as [|z]; [apply result_props_alloc|].
      unfold type_utils.EnumLike, ToBoolean.
      destruct (z =? 0)%Z; apply result_props_alloc.
    + unfold type_utils.EnumLike, ToBoolean.
      destruct (String.eqb s ""); apply result_props_alloc.
  - apply result_props_alloc.
  - intros n. apply result_props_alloc.
  - intros b. apply result_props_alloc.
  - apply result_props_alloc.
  - apply (result_props_alloc h [("0", VPrim (PStr "0")); ("1", VPrim (PStr "1")); ("2", VPrim (PStr "2"))]).
Qed.

(** C4, as stated, fails: the keys ["b"], ["1"] come back in the order
    ["1"], ["b"], because an object enumerates its array-index keys first. *)
Lemma EnumLike_key_order_counterexample :
  mixed_heap !! 1%positive = Some (HArray [PStr "b"; PStr "1"])
  ∧ result_props (EnumLike TypeUtils (VRef 1) mixed_heap) =
      Some [("1", VPrim (PStr "1")); ("b", VPrim (PStr "b"))]
  ∧ result_props (EnumLike Lib (VRef 1) mixed_heap) =
      Some [("1", VPrim (PStr "1")); ("b", VPrim (PStr "b"))]
  ∧ keys_of [("1", VPrim (PStr "1")); ("b", VPrim (PStr "b"))]
      ≠ map ToPropertyKey [PStr "b"; PStr "1"].
Proof. repeat split. discriminate. Qed.

(** C4, amended. For every sequence none of whose keys is an array index,
    the keys of the returned mapping are enumerated in the order of their
    first occurrence in the sequence; when the keys are moreover distinct,
    that is the order of the sequence itself. *)
Theorem EnumLike_key_order (i : impl) (h : heap) (a : loc) (K : list prim) :
  h !! a = Some (HArray K) →
  Forall (fun k => array_index (ToPropertyKey k) = None) K →
  ∃ ps, result_props (EnumLike i (VRef a) h) = Some ps
      ∧ keys_of ps = first_occurrences (map ToPropertyKey K)
      ∧ (NoDup (map ToPropertyKey K) → keys_of ps = map ToPropertyKey K).
Proof.
  intros Ha Hf. exists (enum_props K).
  rewrite (EnumLike_array i h a K Ha), result_props_alloc.
  split; [done|]. rewrite keys_enum_props_order by done.
  split; [done|]. apply first_occurrences_NoDup.
Qed.

Lemma EnumLike_key_order_witness :
  status_heap !! 1%positive = Some (HArray status_keys)
  ∧ ∃ ps, result_props (EnumLike TypeUtils (VRef 1) status_heap) = Some ps
      ∧ keys_of ps = first_occurrences (map ToPropertyKey status_keys)
      ∧ (NoDup (map ToPropertyKey status_keys) →
         keys_of ps = map ToPropertyKey status_keys).
Proof.
  split; [reflexivity|].
  apply (EnumLike_key_order TypeUtils status_heap 1 status_keys).
  - reflexivity.
  - repeat constructor.
Defined.

(** An array index has one canonical spelling. *)
Lemma array_index_inj k k' n :
  array_index k = Some n → array_index k' = Some n → k = k'.
Proof.
  assert (H : ∀ s m, array_index s = Some m → s = pretty m).
  { intros s m. unfold array_index. destruct s as [|c s]; [done|].
    destruct (parse_digits 0 (String c s)) as [p|]; [|done].
    destruct (p <? 2 ^ 32 - 1)%N; [|done]. simpl.
    destruct (String.eqb_spec (pretty p) (String c s)) as [<-|]; [|done].
    by intros [= ->]. }
  intros H1%H H2%H. congruence.
Qed.

(** In an enumeration, whatever precedes an index key is a smaller index key. *)
Lemma canonical_index_first ks1 k ks2 m :
  canonical (ks1 ++ k :: ks2) → array_index k = Some m →
  Forall (fun x => ∃ n, array_index x = Some n ∧ (n < m)%N) ks1.
Proof.
  induction ks1 as [|k1 ks1 IH]; simpl; intros Hc Hm; [constructor|].
  apply canonical_cons in Hc as [Hf Hc]. constructor; [|auto].
  rewrite Forall_forall in Hf.
  destruct (Hf k) as [Hne Hkb]; [set_solver|].
  unfold key_before in Hkb. rewrite Hm in Hkb.
  destruct (array_index k1) as [n|] eqn:Hn; [|done].
  exists n. split; [done|]. apply N.ltb_ge in Hkb.
  assert (n ≠ m); [|lia].
  intros ->. apply Hne. by eapply array_index_inj.
Qed.

(** In general the array-index keys of the returned mapping come first, in
    ascending numeric order: whatever precedes an index key is a smaller
    index key. *)
Lemma EnumLike_index_keys_first (i : impl) (h : heap) (a : loc) (K : list prim) :
  h !! a = Some (HArray K) →
  ∃ ps, result_props (EnumLike i (VRef a) h) = Some ps
      ∧ ∀ ks1 k ks2 m, keys_of ps = ks1 ++ k :: ks2 → array_index k = Some m →
          Forall (fun x => ∃ n, array_index x = Some n ∧ (n < m)%N) ks1.
Proof.
  intros Ha. exists (enum_props K).
  rewrite (EnumLike_array i h a K Ha), result_props_alloc.
  split; [done|]. intros ks1 k ks2 m Heq.
  apply canonical_index_first with ks2. rewrite <- Heq.
  apply canonical_enum_props.
Qed.

(** C5. For every sequence, duplicates included, the returned mapping has
    exactly one entry per distinct key; the value read at a key is the
    element of its last occurrence (later writes replace earlier ones); and
    the sequences ['a','a','b'] and ['a','b'] both give {a: 'a', b: 'b'}. *)
Theorem EnumLike_duplicate_keys (i : impl) (h : heap) (a : loc) (K : list prim) :
  h !! a = Some (HArray K) →
  ∃ ps, result_props (EnumLike i (VRef a) h) = Some ps
      ∧ NoDup (keys_of ps)
      ∧ (∀ s, s ∈ keys_of ps ↔ s ∈ map ToPropertyKey K)
      ∧ length ps = length (remove_dups (map ToPropertyKey K))
      ∧ (∀ K1 k K2, K = K1 ++ k :: K2 →
           Forall (fun k' => ToPropertyKey k' ≠ ToPropertyKey k) K2 →
           Get ps (ToPropertyKey k) = Some (VPrim k))
      ∧ (K = [PStr "a"; PStr "a"; PStr "b"] ∨ K = [PStr "a"; PStr "b"] →
           ps = [("a", VPrim (PStr "a")); ("b", VPrim (PStr "b"))]).
Proof.
  intros Ha. exists (enum_props K).
  rewrite (EnumLike_array i h a K Ha), result_props_alloc.
  pose proof (canonical_NoDup _ (canonical_enum_props K)) as Hnd.
  repeat split; try done; try apply keys_enum_props_elem.
  - transitivity (length (keys_of (enum_props K)));
      [unfold keys_of; by rewrite length_map|].
    apply Permutation_length, NoDup_Permutation; [done|apply NoDup_remove_dups|].
    intros s. by rewrite keys_enum_props_elem, elem_of_remove_dups.
  - intros K1 k K2 -> Hf. unfold enum_props. rewrite List.map_app. simpl.
    apply (Get_props_of_entries_last _ (k, VPrim k)).
    apply Forall_forall. intros [k' v'] Hin. simpl.
    apply list_elem_of_fmap in Hin as (k'' & [= -> ->] & Hin).
    rewrite Forall_forall in Hf. auto.
  - by intros [->| ->].
Qed.

Lemma EnumLike_duplicate_keys_witness :
  aab_heap !! 1%positive = Some (HArray [PStr "a"; PStr "a"; PStr "b"])
  ∧ ∃ ps, result_props (EnumLike TypeUtils (VRef 1) aab_heap) = Some ps
      ∧ NoDup (keys_of ps)
      ∧ (∀ s, s ∈ keys_of ps ↔ s ∈ map ToPropertyKey [PStr "a"; PStr "a"; PStr "b"])
      ∧ length ps = length (remove_dups (map ToPropertyKey [PStr "a"; PStr "a"; PStr "b"]))
      ∧ (∀ K1 k K2, [PStr "a"; PStr "a"; PStr "b"] = K1 ++ k :: K2 →
           Forall (fun k' => ToPropertyKey k' ≠ ToPropertyKey k) K2 →
           Get ps (ToPropertyKey k) = Some (VPrim k))
      ∧ ([PStr "a"; PStr "a"; PStr "b"] = [PStr "a"; PStr "a"; PStr "b"]
         ∨ [PStr "a"; PStr "a"; PStr "b"] = [PStr "a"; PStr "b"] →
           ps = [("a", VPrim (PStr "a")); ("b", VPrim (PStr "b"))]).
Proof.
  split; [reflexivity|].
  apply (EnumLike_duplicate_keys TypeUtils aab_heap 1). reflexivity.
Defined.

(** The value kept for a key written twice is the later element. *)
Example EnumLike_last_write_wins :
  result_props (EnumLike TypeUtils (VRef 1)
                  {[ 1%positive := HArray [PStr "1"; PNum (Int 1)] ]}) =
    Some [("1", VPrim (PNum (Int 1)))]
  ∧ result_props (EnumLike TypeUtils (VRef 1)
                  {[ 1%positive := HArray [PNum (Int 1); PStr "1"] ]}) =
    Some [("1", VPrim (PStr "1"))].
Proof. split; reflexivity. Qed.

(** C6. On an empty sequence and on an empty object both implementations
    return an empty mapping, and do not throw. *)
Theorem EnumLike_empty (i : impl) (h : heap) (a : loc) :
  h !! a = Some (HArray []) ∨ h !! a = Some (HObject []) →
  result_props (EnumLike i (VRef a) h) = Some [].
Proof.
  intros [Ha|Ha].
  - by rewrite (EnumLike_array i h a [] Ha), result_props_alloc.
  - by rewrite (EnumLike_object i h a [] Ha), result_props_alloc.
Qed.

Lemma EnumLike_empty_witness :
  (result_props (EnumLike TypeUtils (VRef 1) empties_heap) = Some []
   ∧ result_props (EnumLike Lib (VRef 1) empties_heap) = Some [])
  ∧ (result_props (EnumLike TypeUtils (VRef 2) empties_heap) = Some []
     ∧ result_props (EnumLike Lib (VRef 2) empties_heap) = Some []).
Proof.
  refine (conj (conj _ _) (conj _ _)).
  - apply (EnumLike_empty TypeUtils empties_heap 1). left. reflexivity.
  - apply (EnumLike_empty Lib empties_heap 1). left. reflexivity.
  - apply (EnumLike_empty TypeUtils empties_heap 2). right. reflexivity.
  - apply (EnumLike_empty Lib empties_heap 2). right. reflexivity.
Defined.

(** C7. A call of [EnumLike] on an array or an object leaves the whole heap
    as it was, the input with its contents and order included, and returns a
    newly allocated object, at a location that was unused before the call and
    so differs from the input. *)
Theorem EnumLike_frame (i : impl) (h : heap) (a : loc) (o : hobj) :
  h !! a = Some o →
  ∃ l h' ps, EnumLike i (VRef a) h = Normal (VRef l) h'
      ∧ h !! l = None
      ∧ l ≠ a
      ∧ h' !! l = Some (HObject ps)
      ∧ h' !! a = Some o
      ∧ (∀ l0, l0 ≠ l → h' !! l0 = h !! l0).
Proof.
  intros Ha.
  assert (Hl : fresh (dom h) ≠ a).
  { intros Heq. pose proof (fresh_not_allocated h) as Hf. congruence. }
  exists (fresh (dom h)).
  destruct o as [K|M].
  - eexists _, _. rewrite (EnumLike_array i h a K Ha).
    split; [done|]. split; [apply fresh_not_allocated|]. split; [done|].
    split; [by rewrite lookup_insert_eq|].
    split; [by rewrite lookup_insert_ne|].
    intros l0 Hne. by rewrite lookup_insert_ne.
  - eexists _, _. rewrite (EnumLike_object i h a M Ha).
    split; [done|]. split; [apply fresh_not_allocated|]. split; [done|].
    split; [by rewrite lookup_insert_eq|].
    split; [by rewrite lookup_insert_ne|].
    intros l0 Hne. by rewrite lookup_insert_ne.
Qed.

Lemma EnumLike_frame_witness :
  point_heap !! 2%positive = Some (HObject point_props)
  ∧ ∃ l h' ps, EnumLike TypeUtils (VRef 2) point_heap = Normal (VRef l) h'
      ∧ point_heap !! l = None
      ∧ l ≠ 2%positive
      ∧ h' !! l = Some (HObject ps)
      ∧ h' !! 2%positive = Some (HObject point_props)
      ∧ (∀ l0, l0 ≠ l → h' !! l0 = point_heap !! l0).
Proof.
  split; [reflexivity|].
  apply (EnumLike_frame TypeUtils point_heap 2). reflexivity.
Defined.

Lemma EnumLike_agree (v : value) (h : heap) :
  guarded_alike v = true → type_utils.EnumLike v h = lib.EnumLike v h.
Proof.
  destruct v as [p|l]; simpl.
  - destruct p as [| |b|n|s]; try done; intros Hg.
    + by destruct b.
    + destruct n as [|z]; [done|].
      unfold type_utils.EnumLike, ToBoolean. by destruct (z =? 0)%Z.
    + by apply String.eqb_eq in Hg as ->.
  - intros _. destruct (h !! l) as [[K|M]|] eqn:Hl.
    + pose proof (EnumLike_array TypeUtils h l K Hl) as H1.
      pose proof (EnumLike_array Lib h l K Hl) as H2.
      unfold EnumLike in H1, H2. congruence.
    + pose proof (EnumLike_object TypeUtils h l M Hl) as H1.
      pose proof (EnumLike_object Lib h l M Hl) as H2.
      unfold EnumLike in H1, H2. congruence.
    + by run_with Hl.
Qed.

(** C8. The two implementations do not compute the same result on every
    input: on [null] the one of type-utils/enum-like returns an empty mapping
    where the one of lib/enum-like.ts throws a [TypeError], and on the string
    'Red' the former returns an empty mapping and the latter the mapping of
    the indices of the string. *)
Theorem EnumLike_implementations_differ (h : heap) :
  result_props (type_utils.EnumLike (VPrim PNull) h) = Some []
  ∧ lib.EnumLike (VPrim PNull) h = Throw TypeError
  ∧ type_utils.EnumLike (VPrim PNull) h ≠ lib.EnumLike (VPrim PNull) h
  ∧ result_props (type_utils.EnumLike (VPrim (PStr "Red")) h) = Some []
  ∧ result_props (lib.EnumLike (VPrim (PStr "Red")) h) =
      Some [("0", VPrim (PStr "0")); ("1", VPrim (PStr "1")); ("2", VPrim (PStr "2"))].
Proof.
  split; [apply result_props_alloc|].
  split; [reflexivity|].
  split; [discriminate|].
  split; [apply result_props_alloc|].
  apply (result_props_alloc h
    [("0", VPrim (PStr "0")); ("1", VPrim (PStr "1")); ("2", VPrim (PStr "2"))]).
Qed.

(** C9, as stated, fails on a sequence with a number: [EnumLike([1])] is
    {1: 1}, and [EnumLike] of that mapping is {1: '1'}. *)
Lemma EnumLike_idempotent_counterexample :
  one_heap !! 1%positive = Some (HArray [PNum (Int 1)])
  ∧ result_props (EnumLike TypeUtils (VRef 1) one_heap) =
      Some [("1", VPrim (PNum (Int 1)))]
  ∧ result_props (twice (EnumLike TypeUtils) (VRef 1) one_heap) =
      Some [("1", VPrim (PStr "1"))]
  ∧ result_props (twice (EnumLike TypeUtils) (VRef 1) one_heap)
      ≠ result_props (EnumLike TypeUtils (VRef 1) one_heap).
Proof. repeat split. discriminate. Qed.

(** Applying [EnumLike] to the mapping it returned keeps the keys and their
    order, and replaces every value by its key. *)
Lemma EnumLike_twice (i : impl) (h : heap) (a : loc) (o : hobj) :
  h !! a = Some o →
  ∃ ps, result_props (EnumLike i (VRef a) h) = Some ps
      ∧ canonical (keys_of ps)
      ∧ result_props (twice (EnumLike i) (VRef a) h) = Some (stringify ps)
      ∧ (string_keyed o = true → Forall (fun p => p.2 = VPrim (PStr p.1)) ps).
Proof.
  intros Ha.
  assert (∃ ks, EnumLike i (VRef a) h =
            Normal (VRef (fresh (dom h))) (<[fresh (dom h) := HObject (enum_props ks)]> h)
          ∧ (string_keyed o = true → Forall (fun k => is_string k = true) ks))
    as (ks & Hrun & Hstr).
  { destruct o as [K|M].
    - exists K. split; [by apply EnumLike_array|].
      simpl. intros HK. apply Forall_forall. intros k Hk.
      rewrite forallb_forall in HK. apply HK. by apply list_elem_of_In.
    - exists (map PStr (keys_of M)). split; [by apply EnumLike_object|].
      intros _. apply Forall_forall. intros k Hk.
      by apply list_elem_of_fmap in Hk as (s & -> & _). }
  exists (enum_props ks). rewrite Hrun, result_props_alloc.
  split; [done|]. split; [apply canonical_enum_props|]. split.
  - unfold twice, mbind, M_bind. rewrite Hrun.
    rewrite (EnumLike_object i _ _ (enum_props ks)) by apply lookup_insert_eq.
    rewrite result_props_alloc. f_equal.
    apply enum_props_keys_of, canonical_enum_props.
  - intros Ho. apply Forall_forall. intros [s v] Hin. simpl.
    apply enum_props_entries in Hin as (k & Hk & -> & ->).
    specialize (Hstr Ho). rewrite Forall_forall in Hstr.
    specialize (Hstr k Hk). by destruct k.
Qed.

(** C9, amended. For every object input, and for every sequence whose keys
    are strings, applying [EnumLike] to the mapping returned by [EnumLike]
    yields a mapping equal to it. *)
Theorem EnumLike_idempotent (i : impl) (h : heap) (a : loc) (o : hobj) :
  h !! a = Some o →
  string_keyed o = true →
  ∃ ps, result_props (EnumLike i (VRef a) h) = Some ps
      ∧ result_props (twice (EnumLike i) (VRef a) h) = Some ps.
Proof.
  intros Ha Ho.
  destruct (EnumLike_twice i h a o Ha) as (ps & H1 & _ & H2 & H3).
  exists ps. split; [done|]. by rewrite H2, stringify_id by auto.
Qed.

Lemma EnumLike_idempotent_witness :
  (status_heap !! 1%positive = Some (HArray status_keys)
   ∧ string_keyed (HArray status_keys) = true)
  ∧ ∃ ps, result_props (EnumLike TypeUtils (VRef 1) status_heap) = Some ps
      ∧ result_props (twice (EnumLike TypeUtils) (VRef 1) status_heap) = Some ps.
Proof.
  split; [split; reflexivity|].
  apply (EnumLike_idempotent TypeUtils status_heap 1 (HArray status_keys));
    reflexivity.
Defined.

(** * Further properties *)

(** ** Helper lemmas *)

Lemma CreateDataProperty_same ps k v :
  canonical (keys_of ps) → Get ps k = Some v → CreateDataProperty ps k v = ps.
Proof.
  unfold keys_of. induction ps as [|[k0 v0] ps IH]; simpl; intros Hc Hget; [done|].
  destruct (String.eqb_spec k0 k) as [->|Hne]; [by injection Hget as ->|].
  destruct (key_before k k0) eqn:Hkb.
  - pose proof (key_before_head_fresh _ _ _ Hc Hkb) as Hf.
    rewrite Forall_forall in Hf.
    assert (Hin : k ∈ k0 :: map fst ps).
    { right. apply Get_elem in Hget. by apply elem_keys_of in Hget. }
    by destruct (Hf _ Hin).
  - apply canonical_cons in Hc as [_ Hc]. by rewrite IH.
Qed.

(** Reading a mapping built from a sequence of strings. *)
Lemma Get_enum_props_strings (S : list string) s :
  Get (enum_props (map PStr S)) s =
    if decide (s ∈ S) then Some (VPrim (PStr s)) else None.
Proof.
  destruct (Get (enum_props (map PStr S)) s) as [v|] eqn:Hget.
  - apply Get_elem in Hget as Hin.
    apply enum_props_entries in Hin as (k & Hk & -> & ->).
    apply list_elem_of_fmap in Hk as (s' & -> & Hs'). simpl.
    by rewrite decide_True.
  - apply Get_None in Hget. rewrite keys_enum_props_elem in Hget.
    rewrite decide_False; [done|]. intros Hs. apply Hget.
    rewrite List.map_map. simpl. rewrite List.map_id. done.
Qed.

Lemma enum_props_first_occurrences (S : list string) :
  enum_props (map PStr (first_occurrences S)) = enum_props (map PStr S).
Proof.
  induction S as [|x S IH] using rev_ind; [done|].
  rewrite first_occurrences_snoc.
  rewrite (List.map_app PStr S [x]). simpl. rewrite enum_props_snoc. simpl.
  destruct (decide (x ∈ S)) as [Hin|Hin].
  - rewrite IH. symmetry. apply CreateDataProperty_same.
    + apply canonical_enum_props.
    + by rewrite Get_enum_props_strings, decide_True.
  - rewrite List.map_app. simpl. by rewrite enum_props_snoc, IH.
Qed.

Lemma length_enum_props_remove_dups ks :
  length (enum_props ks) = length (remove_dups (map ToPropertyKey ks)).
Proof.
  transitivity (length (keys_of (enum_props ks)));
    [unfold keys_of; by rewrite length_map|].
  apply Permutation_length, NoDup_Permutation.
  - apply canonical_NoDup, canonical_enum_props.
  - apply NoDup_remove_dups.
  - intros s. by rewrite keys_enum_props_elem, elem_of_remove_dups.
Qed.

Lemma length_remove_dups_le (l : list string) :
  (length (remove_dups l) <= length l)%nat.
Proof.
  induction l as [|x l IH]; simpl; [done|].
  destruct (decide_rel elem_of x l); simpl; lia.
Qed.

Lemma length_remove_dups_eq (l : list string) :
  length (remove_dups l) = length l ↔ NoDup l.
Proof.
  induction l as [|x l IH]; simpl.
  - split; [constructor|done].
  - pose proof (length_remove_dups_le l) as Hle.
    rewrite NoDup_cons. destruct (decide_rel elem_of x l) as [Hin|Hin]; simpl.
    + split; [lia|tauto].
    + rewrite <- IH. split; [intros [= ?]; tauto|intros [_ ->]; done].
Qed.

Lemma props_of_entries_nonempty e es : props_of_entries (e :: es) ≠ [].
Proof.
  intros Heq.
  assert (Hin : ToPropertyKey e.1 ∈ keys_of (props_of_entries (e :: es))).
  { apply keys_props_of_entries_elem. simpl. left. }
  rewrite Heq in Hin. by apply elem_of_nil in Hin.
Qed.

(** X3. On primitives the two implementations return the same completion
    exactly when the primitive is not [undefined], not [null] and not a
    string with at least one character; on every dense array of primitives
    and on every plain object they return the same completion. *)
Theorem EnumLike_agree_iff (h : heap) :
  (∀ p : prim,
      type_utils.EnumLike (VPrim p) h = lib.EnumLike (VPrim p) h ↔
      same_on_primitive p = true)
  ∧ (∀ l K, h !! l = Some (HArray K) →
       type_utils.EnumLike (VRef l) h = lib.EnumLike (VRef l) h)
  ∧ (∀ l M, h !! l = Some (HObject M) →
       type_utils.EnumLike (VRef l) h = lib.EnumLike (VRef l) h).
Proof.
  split; [|split].
  - intros p. destruct p as [| |b|n|s]; simpl.
    + split; discriminate.
    + split; discriminate.
    + split; [done|]. by destruct b.
    + split; [done|]. intros _. destruct n as [|z]; [done|].
      unfold type_utils.EnumLike, ToBoolean. by destruct (z =? 0)%Z.
    + assert (Ht : type_utils.EnumLike (VPrim (PStr s)) h =
                Normal (VRef (fresh (dom h))) (<[fresh (dom h) := HObject []]> h)).
      { unfold type_utils.EnumLike, ToBoolean. by destruct (String.eqb s ""). }
      assert (Hl : lib.EnumLike (VPrim (PStr s)) h =
                Normal (VRef (fresh (dom h)))
                  (<[fresh (dom h) := HObject (props_of_entries
                      (map (fun key => (PStr key, VPrim (PStr key)))
                         (index_keys (utf16_length s))))]> h))
        by reflexivity.
      rewrite Ht, Hl. destruct (utf16_length s) as [|n]; simpl.
      * done.
      * split; [|done]. intros Heq. exfalso.
        apply (f_equal result_props) in Heq.
        rewrite !result_props_alloc in Heq. injection Heq as Heq.
        symmetry in Heq. revert Heq. unfold index_keys. simpl.
        apply props_of_entries_nonempty.
  - intros l K Hl.
    pose proof (EnumLike_array TypeUtils h l K Hl) as H1.
    pose proof (EnumLike_array Lib h l K Hl) as H2.
    unfold EnumLike in H1, H2. congruence.
  - intros l M Hl.
    pose proof (EnumLike_object TypeUtils h l M Hl) as H1.
    pose proof (EnumLike_object Lib h l M Hl) as H2.
    unfold EnumLike in H1, H2. congruence.
Qed.

Lemma EnumLike_agree_iff_witness :
  status_heap !! 1%positive = Some (HArray status_keys)
  ∧ type_utils.EnumLike (VRef 1) status_heap = lib.EnumLike (VRef 1) status_heap.
Proof.
  split; [reflexivity|].
  apply (proj1 (proj2 (EnumLike_agree_iff status_heap)) 1%positive status_keys).
  reflexivity.
Defined.

(** X4. On an object, [EnumLike] returns what it returns on the array of the
    object's keys, whichever of the two implementations makes either call. *)
Theorem EnumLike_object_as_key_array (i j : impl) (h h' : heap) (a a' : loc)
    (M : props) :
  h !! a = Some (HObject M) →
  h' !! a' = Some (HArray (map PStr (keys_of M))) →
  ∃ ps, result_props (EnumLike i (VRef a) h) = Some ps
      ∧ result_props (EnumLike j (VRef a') h') = Some ps.
Proof.
  intros Ha Ha'. exists (enum_props (map PStr (keys_of M))).
  rewrite (EnumLike_object i h a M Ha), (EnumLike_array j h' a' _ Ha').
  by rewrite !result_props_alloc.
Qed.

Lemma EnumLike_object_as_key_array_witness :
  (keys_heap !! 1%positive = Some (HObject point_props)
   ∧ keys_heap !! 2%positive = Some (HArray (map PStr (keys_of point_props))))
  ∧ ∃ ps, result_props (EnumLike TypeUtils (VRef 1) keys_heap) = Some ps
        ∧ result_props (EnumLike Lib (VRef 2) keys_heap) = Some ps.
Proof.
  split; [split; reflexivity|].
  apply (EnumLike_object_as_key_array TypeUtils Lib keys_heap keys_heap 1 2 point_props);
    reflexivity.
Defined.

(** X5. For every sequence of strings, dropping the repeated occurrences of
    each key (keeping the first) does not change the returned mapping. *)
Theorem EnumLike_repeated_keys (i j : impl) (h h' : heap) (a a' : loc)
    (S : list string) :
  h !! a = Some (HArray (map PStr S)) →
  h' !! a' = Some (HArray (map PStr (first_occurrences S))) →
  ∃ ps, result_props (EnumLike i (VRef a) h) = Some ps
      ∧ result_props (EnumLike j (VRef a') h') = Some ps.
Proof.
  intros Ha Ha'. exists (enum_props (map PStr S)).
  rewrite (EnumLike_array i h a _ Ha), (EnumLike_array j h' a' _ Ha').
  by rewrite !result_props_alloc, enum_props_first_occurrences.
Qed.

Lemma EnumLike_repeated_keys_witness :
  (repeated_heap !! 1%positive = Some (HArray (map PStr ["a"; "1"; "a"; "b"; "1"]))
   ∧ repeated_heap !! 2%positive =
       Some (HArray (map PStr (first_occurrences ["a"; "1"; "a"; "b"; "1"]))))
  ∧ ∃ ps, result_props (EnumLike TypeUtils (VRef 1) repeated_heap) = Some ps
        ∧ result_props (EnumLike TypeUtils (VRef 2) repeated_heap) = Some ps.
Proof.
  split; [split; reflexivity|].
  apply (EnumLike_repeated_keys TypeUtils TypeUtils repeated_heap repeated_heap 1 2
           ["a"; "1"; "a"; "b"; "1"]); reflexivity.
Defined.

(** X6. The mapping returned for a sequence never has more entries than the
    sequence has elements, and it has as many exactly when the property keys
    of the elements are pairwise distinct. *)
Theorem EnumLike_entry_count (i : impl) (h : heap) (a : loc) (K : list prim) :
  h !! a = Some (HArray K) →
  ∃ ps, result_props (EnumLike i (VRef a) h) = Some ps
      ∧ (length ps <= length K)%nat
      ∧ (length ps = length K ↔ NoDup (map ToPropertyKey K)).
Proof.
  intros Ha. exists (enum_props K).
  rewrite (EnumLike_array i h a K Ha), result_props_alloc.
  split; [done|]. rewrite length_enum_props_remove_dups.
  rewrite <- (length_map ToPropertyKey K). split.
  - apply length_remove_dups_le.
  - apply length_remove_dups_eq.
Qed.

Lemma EnumLike_entry_count_witness :
  interleaved_heap !! 1%positive = Some (HArray interleaved_keys)
  ∧ ∃ ps, result_props (EnumLike Lib (VRef 1) interleaved_heap) = Some ps
      ∧ (length ps <= length interleaved_keys)%nat
      ∧ (length ps = length interleaved_keys ↔
           NoDup (map ToPropertyKey interleaved_keys)).
Proof.
  split; [reflexivity|].
  apply (EnumLike_entry_count Lib interleaved_heap 1 interleaved_keys).
  reflexivity.
Defined.

(** X7. The mapping returned for a sequence of strings, repeated keys or not,
    is the identity on the supplied keys and has nothing else: reading it at
    a string of the sequence gives that string, reading it at any other key
    finds no property. *)
Theorem EnumLike_lookup (i : impl) (h : heap) (a : loc) (S : list string) :
  h !! a = Some (HArray (map PStr S)) →
  ∃ ps, result_props (EnumLike i (VRef a) h) = Some ps
      ∧ ∀ s, Get ps s = if decide (s ∈ S) then Some (VPrim (PStr s)) else None.
Proof.
  intros Ha. exists (enum_props (map PStr S)).
  rewrite (EnumLike_array i h a _ Ha), result_props_alloc.
  split; [done|]. apply Get_enum_props_strings.
Qed.

Lemma EnumLike_lookup_witness :
  repeated_heap !! 1%positive = Some (HArray (map PStr ["a"; "1"; "a"; "b"; "1"]))
  ∧ ∃ ps, result_props (EnumLike Lib (VRef 1) repeated_heap) = Some ps
      ∧ ∀ s, Get ps s =
          if decide (s ∈ ["a"; "1"; "a"; "b"; "1"]) then Some (VPrim (PStr s)) else None.
Proof.
  split; [reflexivity|].
  apply (EnumLike_lookup Lib repeated_heap 1 ["a"; "1"; "a"; "b"; "1"]).
  reflexivity.
Defined.

(** Creating an array-index key that was absent leaves the ordinary keys and
    their order as they were. *)
Lemma ordinary_keys_CreateDataProperty_index ps k v :
  k ∉ keys_of ps → ¬ ordinary_key k →
  filter ordinary_key (keys_of (CreateDataProperty ps k v)) =
    filter ordinary_key (keys_of ps).
Proof.
  unfold keys_of. induction ps as [|[k0 v0] ps IH]; simpl; intros Hin Hk.
  - by rewrite filter_cons_False.
  - apply not_elem_of_cons in Hin as [Hne Hin].
    destruct (String.eqb_spec k0 k); [congruence|].
    destruct (key_before k k0); simpl.
    + by rewrite (filter_cons_False _ k).
    + rewrite !(filter_cons _ k0), IH by done. done.
Qed.

Lemma ordinary_keys_enum_props ks :
  filter ordinary_key (keys_of (enum_props ks)) =
    first_occurrences (filter ordinary_key (map ToPropertyKey ks)).
Proof.
  induction ks as [|k ks IH] using rev_ind; [done|].
  rewrite enum_props_snoc, List.map_app, filter_app. simpl.
  destruct (decide (ToPropertyKey k ∈ keys_of (enum_props ks))) as [Hin|Hin].
  - rewrite keys_CreateDataProperty_present, IH
      by (done || apply canonical_enum_props).
    destruct (decide (ordinary_key (ToPropertyKey k))) as [Hk|Hk].
    + rewrite filter_cons_True, filter_nil by done.
      rewrite first_occurrences_snoc, decide_True; [done|].
      apply list_elem_of_filter. split; [done|].
      by apply keys_enum_props_elem.
    + by rewrite filter_cons_False, filter_nil, app_nil_r.
  - destruct (decide (ordinary_key (ToPropertyKey k))) as [Hk|Hk].
    + rewrite CreateDataProperty_append.
      * unfold keys_of at 1. rewrite List.map_app, filter_app. simpl.
        fold (keys_of (enum_props ks)). rewrite IH.
        rewrite !filter_cons_True, !filter_nil by done.
        rewrite first_occurrences_snoc, decide_False; [done|].
        intros [_ Hin']%list_elem_of_filter. apply Hin.
        by apply keys_enum_props_elem.
      * apply Forall_forall. intros x Hx. split; [by intros ->|].
        by apply key_before_not_index.
    + rewrite ordinary_keys_CreateDataProperty_index, IH by done.
      by rewrite filter_cons_False, filter_nil, app_nil_r.
Qed.

(** X8. The order in which the returned mapping enumerates its keys, for any
    sequence: the keys that are not array indices appear in the order of
    their first occurrence in the sequence, and whatever precedes an
    array-index key is an array-index key of smaller numeric value. *)
Theorem EnumLike_enumeration_order (i : impl) (h : heap) (a : loc) (K : list prim) :
  h !! a = Some (HArray K) →
  ∃ ps, result_props (EnumLike i (VRef a) h) = Some ps
      ∧ filter ordinary_key (keys_of ps) =
          first_occurrences (filter ordinary_key (map ToPropertyKey K))
      ∧ ∀ ks1 k ks2 m, keys_of ps = ks1 ++ k :: ks2 → array_index k = Some m →
          Forall (fun x => ∃ n, array_index x = Some n ∧ (n < m)%N) ks1.
Proof.
  intros Ha. exists (enum_props K).
  rewrite (EnumLike_array i h a K Ha), result_props_alloc.
  split; [done|]. split; [apply ordinary_keys_enum_props|].
  intros ks1 k ks2 m Heq. apply canonical_index_first with ks2.
  rewrite <- Heq. apply canonical_enum_props.
Qed.

Lemma EnumLike_enumeration_order_witness :
  interleaved_heap !! 1%positive = Some (HArray interleaved_keys)
  ∧ ∃ ps, result_props (EnumLike TypeUtils (VRef 1) interleaved_heap) = Some ps
      ∧ filter ordinary_key (keys_of ps) =
          first_occurrences (filter ordinary_key (map ToPropertyKey interleaved_keys))
      ∧ ∀ ks1 k ks2 m, keys_of ps = ks1 ++ k :: ks2 → array_index k = Some m →
          Forall (fun x => ∃ n, array_index x = Some n ∧ (n < m)%N) ks1.
Proof.
  split; [reflexivity|].
  apply (EnumLike_enumeration_order TypeUtils interleaved_heap 1 interleaved_keys).
  reflexivity.
Defined.







(** X11. Reordering a sequence of pairwise distinct keys does not change
    what can be read from the returned mapping: the mappings of a sequence
    and of any permutation of it give the same value at every key. *)
Theorem EnumLike_permutation (i : impl) (h h' : heap) (a a' : loc)
    (K K' : list prim) :
  h !! a = Some (HArray K) →
  h' !! a' = Some (HArray K') →
  K ≡ₚ K' →
  NoDup (map ToPropertyKey K) →
  ∃ ps ps', result_props (EnumLike i (VRef a) h) = Some ps
      ∧ result_props (EnumLike i (VRef a') h') = Some ps'
      ∧ length ps = length ps'
      ∧ ∀ s, Get ps s = Get ps' s.
Proof.
  intros Ha Ha' Hp Hnd. exists (enum_props K), (enum_props K').
  rewrite (EnumLike_array i h a K Ha), (EnumLike_array i h' a' K' Ha').
  rewrite !result_props_alloc.
  assert (Hp' : map ToPropertyKey K ≡ₚ map ToPropertyKey K')
    by (by apply fmap_Permutation).
  assert (Hnd' : NoDup (map ToPropertyKey K')) by (by rewrite <- Hp').
  split; [done|]. split; [done|]. split.
  - rewrite !length_enum_props by done. by apply Permutation_length.
  - intros s. destruct (decide (s ∈ map ToPropertyKey K)) as [Hin|Hin].
    + apply list_elem_of_fmap in Hin as (k & -> & Hk).
      rewrite !Get_enum_props; try done. by rewrite <- Hp.
    + assert (Hin' : s ∉ map ToPropertyKey K').
      { by rewrite <- Hp'. }
      rewrite <- keys_enum_props_elem in Hin, Hin'.
      apply Get_None in Hin, Hin'. congruence.
Qed.

Lemma EnumLike_permutation_witness :
  (shuffled_heap !! 1%positive = Some (HArray status_keys)
   ∧ shuffled_heap !! 2%positive =
       Some (HArray [PStr "failed"; PStr "pending"; PStr "completed"]))
  ∧ ∃ ps ps', result_props (EnumLike TypeUtils (VRef 1) shuffled_heap) = Some ps
      ∧ result_props (EnumLike TypeUtils (VRef 2) shuffled_heap) = Some ps'
      ∧ length ps = length ps'
      ∧ ∀ s, Get ps s = Get ps' s.
Proof.
  split; [split; reflexivity|].
  apply (EnumLike_permutation TypeUtils shuffled_heap shuffled_heap 1 2
           status_keys [PStr "failed"; PStr "pending"; PStr "completed"]).
  - reflexivity.
  - reflexivity.
  - symmetry.
    apply (Permutation_cons_append [PStr "pending"; PStr "completed"] (PStr "failed")).
  - apply (bool_decide_unpack _). vm_compute. exact I.
Defined.

Lemma index_keys_NoDup n : NoDup (index_keys n).
Proof.
  assert (Hinj : Inj (=) (=) (fun i : nat => pretty (N.of_nat i))).
  { intros i j Hij. apply (inj pretty) in Hij. lia. }
  unfold index_keys. apply (NoDup_fmap_2 _), NoDup_seq.
Qed.

Lemma index_keys_elem n k :
  k ∈ index_keys n ↔ ∃ i, (i < n)%nat ∧ k = pretty (N.of_nat i).
Proof.
  unfold index_keys. rewrite list_elem_of_fmap. split.
  - intros (i & -> & Hi%elem_of_seq). exists i. split; [lia|done].
  - intros (i & Hi & ->). exists i. split; [done|]. apply elem_of_seq. lia.
Qed.

(** X12. On a string the implementation of lib/enum-like.ts returns the
    mapping of the string's positions: one entry per UTF-16 code unit, keyed
    by the decimal indices 0, 1, ..., each with its own key as value; the
    implementation of type-utils/enum-like returns an empty mapping. *)
Theorem EnumLike_string_argument (s : string) (h : heap) :
  ∃ ps, result_props (lib.EnumLike (VPrim (PStr s)) h) = Some ps
      ∧ length ps = utf16_length s
      ∧ (∀ k, k ∈ keys_of ps ↔
           ∃ n, (n < utf16_length s)%nat ∧ k = pretty (N.of_nat n))
      ∧ (∀ k v, (k, v) ∈ ps → v = VPrim (PStr k))
      ∧ result_props (type_utils.EnumLike (VPrim (PStr s)) h) = Some [].
Proof.
  exists (enum_props (map PStr (index_keys (utf16_length s)))).
  assert (Hk : map ToPropertyKey (map PStr (index_keys (utf16_length s))) =
               index_keys (utf16_length s)).
  { rewrite List.map_map. simpl. apply List.map_id. }
  split.
  { unfold enum_props. rewrite List.map_map. apply result_props_alloc. }
  split.
  { rewrite length_enum_props, length_map.
    - unfold index_keys. by rewrite length_map, length_seq.
    - rewrite Hk. apply index_keys_NoDup. }
  split.
  { intros k. rewrite keys_enum_props_elem, Hk. apply index_keys_elem. }
  split.
  { intros k v Hin. apply enum_props_entries in Hin as (p & Hp & -> & ->).
    by apply list_elem_of_fmap in Hp as (k & -> & _). }
  unfold type_utils.EnumLike, ToBoolean.
  destruct (String.eqb s ""); apply result_props_alloc.
Qed.

(** Characters outside ASCII: 'é' and '€' are one code unit each, a
    character beyond U+FFFF is two. *)
Example EnumLike_string_code_units :
  result_props (lib.EnumLike (VPrim (PStr "é")) ∅) = Some [("0", VPrim (PStr "0"))]
  ∧ result_props (lib.EnumLike (VPrim (PStr "€")) ∅) = Some [("0", VPrim (PStr "0"))]
  ∧ result_props (lib.EnumLike (VPrim (PStr "😀")) ∅) =
      Some [("0", VPrim (PStr "0")); ("1", VPrim (PStr "1"))].
Proof. repeat split. Qed.

(** X13. For an object whose keys are in enumeration order, as those of every
    JavaScript object are, the returned mapping is the object itself with
    each value replaced by its key: same keys, same order. *)
Theorem EnumLike_object_order (i : impl) (h : heap) (a : loc) (M : props) :
  h !! a = Some (HObject M) →
  canonical (keys_of M) →
  ∃ ps, result_props (EnumLike i (VRef a) h) = Some ps
      ∧ ps = map (fun p => (p.1, VPrim (PStr p.1))) M
      ∧ keys_of ps = keys_of M.
Proof.
  intros Ha Hc. exists (stringify M).
  rewrite (EnumLike_object i h a M Ha), result_props_alloc.
  rewrite enum_props_keys_of by done.
  split; [done|]. split; [done|].
  unfold keys_of, stringify. by rewrite List.map_map.
Qed.

Lemma EnumLike_object_order_witness :
  (point_heap !! 2%positive = Some (HObject point_props)
   ∧ canonical (keys_of point_props))
  ∧ ∃ ps, result_props (EnumLike TypeUtils (VRef 2) point_heap) = Some ps
      ∧ ps = map (fun p => (p.1, VPrim (PStr p.1))) point_props
      ∧ keys_of ps = keys_of point_props.
Proof.
  assert (Hc : canonical (keys_of point_props)).
  { repeat constructor; discriminate. }
  split; [split; [reflexivity|exact Hc]|].
  apply (EnumLike_object_order TypeUtils point_heap 2 point_props);
    [reflexivity|exact Hc].
Defined.
